(** * fmralign: scaled orthogonal Procrustes alignment and its piecewise use

    The solver [scaled_procrustes] and the alignment objects live in
    [fmralign.alignment_methods] and [fmralign.pairwise_alignment], which are
    not part of the sources at hand: only their tests
    ([fmralign/tests/test_scaled_orthogonal_alignment.py]) and a caller
    ([examples/pairwise_roi_alignment.py]) are.  They are modelled below from
    the specification, following the conventions that the tests pin down.

    Matrices are MathComp matrices over an ordered field [F]; the singular
    value decomposition (numpy's [linalg.svd]) is an oracle whose output is
    required to be a valid decomposition at the one input where it is used. *)

From mathcomp Require Import boot order algebra.
From Stdlib Require String.
Import GRing.Theory Num.Theory.

Set Implicit Arguments.
Unset Strict Implicit.
Unset Printing Implicit Defensive.

Local Open Scope ring_scope.

Module Procrustes.

Section Model.

Variable F : realFieldType.

(** The triple [(U, s, V)] returned by [U, s, V = svd(A)]: numpy returns the
    right factor already transposed, so [A = U diag(s) V]. *)
Definition svd_result (k : nat) : Type := ('M[F]_k * 'rV[F]_k * 'M[F]_k)%type.

Definition svd_oracle : Type := forall k : nat, 'M[F]_k -> svd_result k.

Definition orthogonal (k : nat) (Q : 'M[F]_k) : Prop := Q *m Q^T = 1%:M.

(** [d] is a singular value decomposition of [A]. *)
Definition svd_ok (k : nat) (A : 'M[F]_k) (d : svd_result k) : Prop :=
  let '(U, s, V) := d in
  [/\ orthogonal U, orthogonal V, (forall i, 0 <= s 0 i) &
      A = U *m diag_mx s *m V].

(** [np.linalg.norm(X) ** 2]: the squared Frobenius norm. *)
Definition fro_norm2 (m n : nat) (M : 'M[F]_(m, n)) : F :=
  \sum_i \sum_j M i j ^+ 2.

Variable svd : svd_oracle.

(** [primal=None] selects the primal formulation unless [n < p]. *)
Definition use_primal (n p : nat) (primal : option bool) : bool :=
  if primal is Some b then b else ~~ (n < p)%N.

(** Modelled from the spec: [scaled_procrustes], absent from the sources.
    - degenerate input (Y all zero): R is the identity; the singular values
      of [Y^T X = 0] are all zero, so the spec's scale formula gives 0;
    - primal: [U, s, V = svd(Y^T X)] and [R = U V], the orthogonal Procrustes
      solution that [test_scaled_procrustes_scipy_orthogonal_procrustes]
      compares with [scipy.linalg.orthogonal_procrustes(Y, X)];
    - dual: the spec names the decomposition of [X^T Y] without saying how R
      is read off it; R is taken as the transpose of [U V], the orthogonal
      factor of [Y^T X] obtained from that decomposition;
    - scale: [s = trace(Sigma) / ||X||_F^2] when [scaling], 1 otherwise. *)
Definition scaled_procrustes (n p : nat) (X Y : 'M[F]_(n, p))
    (scaling : bool) (primal : option bool) : 'M[F]_p * F :=
  if Y == 0 then (1%:M, if scaling then 0 else 1)
  else
    let '(R, s) :=
      if use_primal n p primal then
        let '(U, s, V) := svd (Y^T *m X) in (U *m V, s)
      else
        let '(U, s, V) := svd (X^T *m Y) in ((U *m V)^T, s) in
    (R, if scaling then (\sum_i s 0 i) / fro_norm2 X else 1).

(** The decomposition that [scaled_procrustes X Y _ primal] computes is a
    valid singular value decomposition. *)
Definition decomp_ok (n p : nat) (X Y : 'M[F]_(n, p)) (primal : option bool)
    : Prop :=
  if use_primal n p primal then svd_ok (Y^T *m X) (svd (Y^T *m X))
  else svd_ok (X^T *m Y) (svd (X^T *m Y)).

(** Modelled from the spec: [ScaledOrthogonalAlignment].  [fit] stores the
    scaled matrix [s R]; [transform] applies it on the left of the data, as
    [test_Scaled_Orthogonal_Alignment_3Drotation] uses it
    ([fit(X.T, Y.T).transform(X) == Y] for [Y = R X]). *)
Record ScaledOrthogonalAlignment := { so_scaling : bool }.

Definition so_fit (a : ScaledOrthogonalAlignment) (n p : nat)
    (X Y : 'M[F]_(n, p)) : 'M[F]_p :=
  let '(R, sc) := scaled_procrustes X Y (so_scaling a) None in sc *: R.

Definition so_transform (p m : nat) (R : 'M[F]_p) (Z : 'M[F]_(p, m))
    : 'M[F]_(p, m) :=
  R *m Z.

End Model.

End Procrustes.

(** Concrete 2x2 inputs over the rationals. *)
Module Instances.

Import Procrustes.

Definition mx2 (a b c d : rat) : 'M[rat]_2 :=
  \matrix_(i < 2, j < 2)
    if (i : nat) == 0%N then (if (j : nat) == 0%N then a else b)
    else (if (j : nat) == 0%N then c else d).

Definition row2 (a b : rat) : 'rV[rat]_2 :=
  \row_(j < 2) if (j : nat) == 0%N then a else b.

(** An oracle that answers the fixed triple [(U, s, V)] on 2x2 inputs. *)
Definition svd_fixed (U : 'M[rat]_2) (s : 'rV[rat]_2) (V : 'M[rat]_2)
    : svd_oracle rat :=
  fun k =>
    match k as k0 return 'M[rat]_k0 -> svd_result rat k0 with
    | 2%N => fun _ => (U, s, V)
    | _ => fun _ => (1%:M, 0, 1%:M)
    end.

Definition I2 : 'M[rat]_2 := 1%:M.

(** Rotation by a quarter turn. *)
Definition rot90 : 'M[rat]_2 := mx2 0 (-1) 1 0.

(** A rank-one input. *)
Definition E11 : 'M[rat]_2 := mx2 1 0 0 0.

(** The decomposition [Q = Q diag(1, 1) I] of an orthogonal [Q]. *)
Definition svd_orth (Q : 'M[rat]_2) : svd_oracle rat :=
  svd_fixed Q (row2 1 1) I2.

(** [diag(-1, 0) = diag(-1, 1) diag(1, 0) I] and
    [diag(1, 0) = I diag(1, 0) diag(1, -1)]: decompositions of rank-one
    inputs whose factors differ from the identity on the null space. *)
Definition svd_flipU : svd_oracle rat :=
  svd_fixed (mx2 (-1) 0 0 1) (row2 1 0) I2.

Definition svd_flipV : svd_oracle rat :=
  svd_fixed I2 (row2 1 0) (mx2 1 0 0 (-1)).

(** [2 I = I diag(2, 2) I]. *)
Definition svd_twice : svd_oracle rat := svd_fixed I2 (row2 2 2) I2.

End Instances.

(** * Errors of the alignment core *)

Module Errors.

(** The error taxonomy of the specification. *)
Inductive alignment_error :=
  | ShapeMismatch
  | NotFittedError
  | InvalidConfiguration
  | NumericalDegeneracy.

(** A call either returns a value or raises one of the errors above. *)
Inductive result (A : Type) :=
  | Ok of A
  | Err of alignment_error.

Arguments Err {A}.

End Errors.

(** * Alignment Method Objects *)

Module Methods.

Import Errors.

(** The recognised values of [alignment_method]. *)
Inductive variant :=
  | Identity
  | Permutation
  | ScaledOrthogonal
  | OptimalTransport
  | Ridge.

Section Lifecycle.

(** Sample matrices, and the transformation each variant solves for: a
    permutation, [(R, s)], a transport plan or a ridge coefficient matrix. *)
Variable mat : Type.
Variable transformation : Type.
Variable solve : variant -> mat -> mat -> transformation.
Variable apply_transformation : transformation -> mat -> mat.

(** Modelled from the spec: an object knows its variant and, once fitted,
    the transformation stored by its last [fit]. *)
Record AlignmentMethod := {
  am_variant : variant;
  am_state : option transformation
}.

(** A freshly constructed object: nothing is stored yet. *)
Definition make (v : variant) : AlignmentMethod :=
  {| am_variant := v; am_state := None |}.

(** [fit(X, Y)] replaces the stored state and returns the object itself. *)
Definition am_fit (a : AlignmentMethod) (X Y : mat) : AlignmentMethod :=
  {| am_variant := am_variant a;
     am_state := Some (solve (am_variant a) X Y) |}.

(** [transform(X_new)] applies the stored transformation; on an object that
    was never fitted it raises [NotFittedError]. *)
Definition am_transform (a : AlignmentMethod) (Z : mat) : result mat :=
  match am_state a with
  | None => Err NotFittedError
  | Some t => Ok (apply_transformation t Z)
  end.

(** A sequence of calls on one object. *)
Inductive call :=
  | CallFit of mat & mat
  | CallTransform of mat.

Definition is_fit (c : call) : bool :=
  if c is CallFit _ _ then true else false.

(** The results of the [transform] calls of a call sequence, in order; the
    object is threaded through the calls. *)
Fixpoint run (a : AlignmentMethod) (cs : seq call) : seq (result mat) :=
  match cs with
  | [::] => [::]
  | CallFit X Y :: cs' => run (am_fit a X Y) cs'
  | CallTransform Z :: cs' => am_transform a Z :: run a cs'
  end.

End Lifecycle.

End Methods.

(** * Region partitioning and the piecewise orchestrator *)

Module Piecewise.

Import Errors.

Section Orchestrator.

(** Entries of the sample matrices, with a filler value [d] for reads out
    of range. *)
Variable T : Type.
Variable d : T.

(** A sample matrix: its number of columns (features) and its rows. *)
Record SampleMatrix := {
  ncols : nat;
  rows : seq (seq T)
}.

(** Every row has [ncols] entries. *)
Definition well_formed (M : SampleMatrix) : bool :=
  all (fun r => size r == ncols M) (rows M).

Definition shape (M : SampleMatrix) : nat * nat := (size (rows M), ncols M).

(** The sub-matrix made of the columns [idx], in that order. *)
Definition select_cols (idx : seq nat) (M : SampleMatrix) : SampleMatrix :=
  {| ncols := size idx; rows := [seq [seq nth d r c | c <- idx] | r <- rows M] |}.

(** The clustering algorithm used for more than one region (a fixed,
    seeded algorithm): feature count and region count to labels. *)
Variable cluster : nat -> nat -> seq nat.

(** Modelled from the spec: the Region Partitioner.  One region labels every
    feature 0; more regions than features is a configuration error. *)
Definition partition (p n_pieces : nat) : result (seq nat) :=
  if (n_pieces == 0%N) || (p < n_pieces)%N then Err InvalidConfiguration
  else if n_pieces == 1%N then Ok (nseq p 0%N)
  else Ok (cluster p n_pieces).

(** The columns of region [r], in increasing order. *)
Definition region_cols (labels : seq nat) (r : nat) : seq nat :=
  [seq c <- iota 0 (size labels) | nth 0%N labels c == r].

(** The configured Alignment Method Object: its fitted state, [fit] and
    [transform]. *)
Variable state : Type.
Variable method_fit : SampleMatrix -> SampleMatrix -> state.
Variable method_transform : state -> SampleMatrix -> SampleMatrix.

(** The PiecewiseAlignmentModel: the labeling and one fitted object per
    region id. *)
Record PiecewiseModel := {
  pm_labels : seq nat;
  pm_models : seq state
}.

(** Modelled from the spec: [fit(X, Y)] checks the shapes, obtains the
    labeling and fits a fresh object per region on its columns. *)
Definition pw_fit (n_pieces : nat) (X Y : SampleMatrix) : result PiecewiseModel :=
  if shape X != shape Y then Err ShapeMismatch else
  match partition (ncols X) n_pieces with
  | Err e => Err e
  | Ok labels =>
      Ok {| pm_labels := labels;
            pm_models :=
              [seq method_fit (select_cols (region_cols labels r) X)
                              (select_cols (region_cols labels r) Y)
              | r <- iota 0 n_pieces] |}
  end.

Definition empty_matrix : SampleMatrix := {| ncols := 0; rows := [::] |}.

(** Modelled from the spec: [transform(X_new)] applies each region's object
    to that region's columns and puts every output column back at the
    original position of its feature. *)
Definition pw_transform (m : option PiecewiseModel) (Z : SampleMatrix)
  : result SampleMatrix :=
  match m with
  | None => Err NotFittedError
  | Some pm =>
      let labels := pm_labels pm in
      if ncols Z != size labels then Err ShapeMismatch else
      let outs :=
        [seq method_transform rm.2 (select_cols (region_cols labels rm.1) Z)
        | rm <- zip (iota 0 (size (pm_models pm))) (pm_models pm)] in
      let entry i c :=
        let r := nth 0%N labels c in
        nth d (nth [::] (rows (nth empty_matrix outs r)) i)
              (index c (region_cols labels r)) in
      Ok {| ncols := size labels;
            rows := mkseq (fun i => [seq entry i c | c <- iota 0 (size labels)])
                          (size (rows Z)) |}
  end.

(** [fit] followed by [transform] on the orchestrator. *)
Definition pw_fit_transform (n_pieces : nat) (X Y Z : SampleMatrix)
  : result SampleMatrix :=
  match pw_fit n_pieces X Y with
  | Err e => Err e
  | Ok pm => pw_transform (Some pm) Z
  end.

(** The same variant fitted directly on the full matrices. *)
Definition direct_fit_transform (X Y Z : SampleMatrix) : SampleMatrix :=
  method_transform (method_fit X Y) Z.

End Orchestrator.

End Piecewise.

(** * The test data and the example's scoring *)

Module TestData.

Section Data.

Variable F : realFieldType.

(** [X.mean(axis=1, keepdims=True)]: the column of row means. *)
Definition row_mean (n p : nat) (X : 'M[F]_(n, p)) : 'cV[F]_n :=
  \col_i ((\sum_k X i k) / p%:R).

(** [X - X.mean(axis=1, keepdims=True)], the column being broadcast along
    each row. *)
Definition center (n p : nat) (X : 'M[F]_(n, p)) : 'M[F]_(n, p) :=
  X - \matrix_(i, j) row_mean X i 0.

(** [np.array([[1., 0., 0.], [0., c, -s], [0., s, c]])] with [c = np.cos(1)]
    and [s = np.sin(1)]. *)
Definition rotation_x (c s : F) : 'M[F]_3 :=
  \matrix_(i, j)
    match (i : nat), (j : nat) with
    | 0, 0 => 1
    | 1, 1 => c
    | 1, 2 => - s
    | 2, 1 => s
    | 2, 2 => c
    | _, _ => 0
    end.

End Data.

End TestData.

Module Scoring.

Section R2.

Variable F : realFieldType.

(** [np.average(y_true, axis=0)]. *)
Definition column_mean (n p : nat) (Yt : 'M[F]_(n, p)) (j : 'I_p) : F :=
  (\sum_i Yt i j) / n%:R.

(** [((y_true - y_pred) ** 2).sum(axis=0)]. *)
Definition r2_numerator (n p : nat) (Yt Yp : 'M[F]_(n, p)) (j : 'I_p) : F :=
  \sum_i (Yt i j - Yp i j) ^+ 2.

(** [((y_true - np.average(y_true, axis=0)) ** 2).sum(axis=0)]. *)
Definition r2_denominator (n p : nat) (Yt : 'M[F]_(n, p)) (j : 'I_p) : F :=
  \sum_i (Yt i j - column_mean Yt j) ^+ 2.

(** [r2_score(y_true, y_pred, multioutput='raw_values')] as scikit-learn
    computes it: with fewer than two samples the score is [nan] ([None]);
    otherwise each column starts at 1, becomes [1 - num / den] where both are
    nonzero, and 0 where only the numerator is nonzero. *)
Definition r2_score_raw (n p : nat) (Yt Yp : 'M[F]_(n, p)) : option 'rV[F]_p :=
  if (n < 2)%N then None
  else Some (\row_j
    let num := r2_numerator Yt Yp j in
    let den := r2_denominator Yt j in
    if num != 0 then (if den != 0 then 1 - num / den else 0) else 1).

(** [np.maximum(scores, -1)]; [nan] stays [nan]. *)
Definition clip_scores (p : nat) (r : 'rV[F]_p) : 'rV[F]_p :=
  \row_j Num.max (r 0 j) (-1).

(** [np.maximum(r2_score(ground_truth, prediction, multioutput='raw_values'),
    -1)], the example's per-voxel score. *)
Definition clipped_r2 (n p : nat) (Yt Yp : 'M[F]_(n, p)) : option 'rV[F]_p :=
  option_map (@clip_scores p) (r2_score_raw Yt Yp).

End R2.

End Scoring.

(** * The example's train and test folds *)

Module Folds.

Import String.

(** A row of the metadata frame [df] returned by
    [fetch_ibc_subjects_contrasts]: its index label and the columns the
    example reads. *)
Record Row := {
  row_index : nat;
  subject : string;
  acquisition : string;
  path : string
}.

Definition DataFrame := seq Row.

(** A boolean Series: its index labels and values. *)
Definition Series := seq (nat * bool).

(** [df.col == v], a Series on [df]'s index. *)
Definition column_eq (col : Row -> string) (df : DataFrame) (v : string) : Series :=
  [seq (row_index r, String.eqb (col r) v) | r <- df].

(** The value of the first entry of [key] with label [k]. *)
Fixpoint lookup (k : nat) (key : Series) : option bool :=
  match key with
  | [::] => None
  | (k', b) :: key' => if k' == k then Some b else lookup k key'
  end.

(** The key reindexed to the labels [idx]: a duplicated label of the key,
    or a label of [idx] the key lacks, raises ([None]). *)
Definition reindex (key : Series) (idx : seq nat) : option (seq bool) :=
  if uniq (map fst key) then
    foldr (fun k acc =>
             match lookup k key, acc with
             | Some b, Some bs => Some (b :: bs)
             | _, _ => None
             end) (Some [::]) idx
  else None.

(** [df[key]] for a boolean Series [key]: the key is used as it is when its
    index is [df]'s, and reindexed to [df]'s index otherwise; the rows where
    it holds are kept, in order. *)
Definition bool_select (df : DataFrame) (key : Series) : option DataFrame :=
  let idx := map row_index df in
  let mask := if map fst key == idx then Some (map snd key) else reindex key idx in
  option_map (fun m => [seq rb.1 | rb <- zip df m & rb.2]) mask.

(** [df[df.subject == subj][df.acquisition == acq]]: the second mask is
    computed on the whole [df]. *)
Definition fold_rows (df : DataFrame) (subj acq : string) : option DataFrame :=
  match bool_select df (column_eq subject df subj) with
  | None => None
  | Some d1 => bool_select d1 (column_eq acquisition df acq)
  end.

(** [df[df.subject == subj][df.acquisition == acq].path.values], as for
    [source_train], [target_train], [source_test] and [target_test]. *)
Definition fold_paths (df : DataFrame) (subj acq : string) : option (seq string) :=
  option_map (map path) (fold_rows df subj acq).

End Folds.

(** * Small concrete data for the test helpers, the scores and the folds *)

Module ExtraInstances.

Import String Folds.

Definition two_samples : 'M[rat]_(2, 1) := \matrix_(i, j) (i : nat)%:R.

Definition shifted_samples : 'M[rat]_(2, 1) := \matrix_(i, j) ((i : nat)%:R + 1).

Definition ibc_frame : DataFrame :=
  [:: {| row_index := 0; subject := "sub-01"; acquisition := "ap"; path := "s1_ap.nii" |};
      {| row_index := 1; subject := "sub-01"; acquisition := "pa"; path := "s1_pa.nii" |};
      {| row_index := 2; subject := "sub-02"; acquisition := "ap"; path := "s2_ap.nii" |};
      {| row_index := 3; subject := "sub-02"; acquisition := "pa"; path := "s2_pa.nii" |}].

End ExtraInstances.

(** * Small concrete instances of the orchestrator and of the methods *)

Module PiecewiseInstances.

Import Piecewise Methods.

(** The identity method on sample matrices of naturals. *)
Definition identity_fit (X Y : SampleMatrix nat) : unit := tt.

Definition identity_transform (s : unit) (Z : SampleMatrix nat)
  : SampleMatrix nat := Z.

(** A clustering that is never consulted with a single region. *)
Definition one_cluster (p k : nat) : seq nat := nseq p 0%N.

(** One sample and no feature; one sample and one feature. *)
Definition no_features : SampleMatrix nat := {| ncols := 0; rows := [:: [::]] |}.

Definition one_feature : SampleMatrix nat := {| ncols := 1; rows := [:: [:: 3%N]] |}.

(** A method whose samples and transformations are naturals. *)
Definition nat_solve (v : variant) (X Y : nat) : nat := (X + Y)%N.

Definition nat_apply (t Z : nat) : nat := (t * Z)%N.

End PiecewiseInstances.

Module ProcrustesFacts.

Import Procrustes.

Section LinearAlgebra.

Variable F : realFieldType.

Lemma fro_norm2_tr (m n : nat) (M : 'M[F]_(m, n)) :
  fro_norm2 M = \tr (M *m M^T).
Proof.
rewrite /fro_norm2 /mxtrace; apply: eq_bigr => i _; rewrite mxE.
by apply: eq_bigr => j _; rewrite mxE expr2.
Qed.

Lemma fro_norm2_ge0 (m n : nat) (M : 'M[F]_(m, n)) : 0 <= fro_norm2 M.
Proof. by apply: sumr_ge0 => i _; apply: sumr_ge0 => j _; apply: sqr_ge0. Qed.

Lemma fro_norm2_eq0 (m n : nat) (M : 'M[F]_(m, n)) :
  fro_norm2 M = 0 -> M = 0.
Proof.
move=> H; apply/matrixP => i j; rewrite mxE.
have Hi : \sum_j M i j ^+ 2 = 0.
  apply: (psumr_eq0P _ H) => // k _.
  by apply: sumr_ge0 => l _; apply: sqr_ge0.
have : M i j ^+ 2 = 0 by apply: (psumr_eq0P _ Hi) => // k _; apply: sqr_ge0.
by move/eqP; rewrite sqrf_eq0 => /eqP.
Qed.

Lemma fro_norm2_tr' (m n : nat) (M : 'M[F]_(m, n)) :
  fro_norm2 M = \tr (M^T *m M).
Proof. by rewrite fro_norm2_tr mxtrace_mulC. Qed.

Lemma fro_norm2_trmx (m n : nat) (M : 'M[F]_(m, n)) :
  fro_norm2 M^T = fro_norm2 M.
Proof. by rewrite !fro_norm2_tr trmxK mxtrace_mulC. Qed.

Lemma orthogonal_trmx_mul (k : nat) (Q : 'M[F]_k) :
  orthogonal Q -> Q^T *m Q = 1%:M.
Proof. exact: mulmx1C. Qed.

Lemma orthogonal_trmx (k : nat) (Q : 'M[F]_k) :
  orthogonal Q -> orthogonal Q^T.
Proof. by move=> HQ; rewrite /orthogonal trmxK; apply: orthogonal_trmx_mul. Qed.

Lemma orthogonal1 (k : nat) : orthogonal (1%:M : 'M[F]_k).
Proof. by rewrite /orthogonal trmx1 mulmx1. Qed.

Lemma orthogonal_mul (k : nat) (A B : 'M[F]_k) :
  orthogonal A -> orthogonal B -> orthogonal (A *m B).
Proof.
move=> HA HB; rewrite /orthogonal trmx_mul mulmxA -(mulmxA A) HB mulmx1.
exact: HA.
Qed.

Lemma orthogonalN (k : nat) (Q : 'M[F]_k) :
  orthogonal Q -> orthogonal (- Q).
Proof. by move=> HQ; rewrite /orthogonal linearN /= mulNmx mulmxN opprK. Qed.

Lemma fro_norm2_mul_orthogonal (m k : nat) (M : 'M[F]_(m, k)) (Q : 'M[F]_k) :
  orthogonal Q -> fro_norm2 (M *m Q) = fro_norm2 M.
Proof.
move=> HQ; rewrite !fro_norm2_tr trmx_mul mulmxA -(mulmxA M) HQ.
by rewrite mulmx1.
Qed.

(** A diagonal entry of an orthogonal matrix lies in [-1, 1]. *)
Lemma orthogonal_diag_bound (k : nat) (W : 'M[F]_k) (i : 'I_k) :
  orthogonal W -> - 1 <= W i i <= 1.
Proof.
move=> HW.
have Hsq : W i i ^+ 2 <= 1.
  have -> : 1 = (W *m W^T) i i :> F by rewrite HW mxE eqxx.
  rewrite mxE (bigD1 i) //= mxE -expr2 lerDl.
  by apply: sumr_ge0 => j _; rewrite mxE -expr2 sqr_ge0.
have H1 := sqr_ge0 (1 - W i i); have H2 := sqr_ge0 (1 + W i i).
have E1 : (1 - W i i) ^+ 2 = 1 - 2 * W i i + W i i ^+ 2 by ring.
have E2 : (1 + W i i) ^+ 2 = 1 + 2 * W i i + W i i ^+ 2 by ring.
rewrite E1 in H1; rewrite E2 in H2.
apply/andP; split; lra.
Qed.

Lemma trace_diag_orthogonal (k : nat) (s : 'rV[F]_k) (W : 'M[F]_k) :
  orthogonal W -> (forall i, 0 <= s 0 i) ->
  - (\sum_i s 0 i) <= \tr (diag_mx s *m W) <= \sum_i s 0 i.
Proof.
move=> HW Hs.
have -> : \tr (diag_mx s *m W) = \sum_i s 0 i * W i i.
  by rewrite mul_diag_mx /mxtrace; apply: eq_bigr => i _; rewrite mxE.
rewrite -sumrN; apply/andP; split; apply: ler_sum => i _;
  have /andP [Hl Hu] := orthogonal_diag_bound i HW; have := Hs i.
- by rewrite -mulrN1 => H; apply: ler_wpM2l.
- by move=> H; rewrite -{2}(mulr1 (s 0 i)); apply: ler_wpM2l.
Qed.


Lemma svd_trace_bound (k : nat) (A U V Q : 'M[F]_k) (s : 'rV[F]_k) :
  svd_ok A (U, s, V) -> orthogonal Q ->
  - (\sum_i s 0 i) <= \tr (A *m Q^T) <= \sum_i s 0 i.
Proof.
move=> [HU HV Hs ->] HQ.
rewrite -!mulmxA mxtrace_mulC -!mulmxA.
apply: trace_diag_orthogonal => //.
by apply: orthogonal_mul => //; apply: orthogonal_mul => //;
  apply: orthogonal_trmx.
Qed.

Lemma svd_trace_factor (k : nat) (A U V : 'M[F]_k) (s : 'rV[F]_k) :
  svd_ok A (U, s, V) -> \tr (A *m (U *m V)^T) = \sum_i s 0 i.
Proof.
move=> [HU HV Hs ->].
rewrite trmx_mul -!mulmxA (mulmxA V) HV mul1mx mxtrace_mulC -mulmxA.
by rewrite orthogonal_trmx_mul // mulmx1 mxtrace_diag.
Qed.

Lemma svd_factor_orthogonal (k : nat) (A U V : 'M[F]_k) (s : 'rV[F]_k) :
  svd_ok A (U, s, V) -> orthogonal (U *m V).
Proof. by move=> [HU HV _ _]; apply: orthogonal_mul. Qed.

(** The transposed decomposition of [A^T] is a decomposition of [A]. *)
Lemma svd_ok_trmx (k : nat) (A U V : 'M[F]_k) (s : 'rV[F]_k) :
  svd_ok A^T (U, s, V) -> svd_ok A (V^T, s, U^T).
Proof.
move=> [HU HV Hs HA]; split => //; try exact: orthogonal_trmx.
by rewrite -[A]trmxK HA !trmx_mul tr_diag_mx mulmxA.
Qed.

(** Expansion of the scaled criterion [||c X Q^T - Y||^2] for orthogonal [Q]. *)
Lemma criterion_expand (n p : nat) (X Y : 'M[F]_(n, p)) (Q : 'M[F]_p) (c : F) :
  orthogonal Q ->
  fro_norm2 (c *: (X *m Q^T) - Y) =
  c ^+ 2 * fro_norm2 X - 2 * c * \tr (Y^T *m X *m Q^T) + fro_norm2 Y.
Proof.
move=> HQ.
have HM : \tr (X *m Q^T *m (X *m Q^T)^T) = fro_norm2 X.
  by rewrite -fro_norm2_tr fro_norm2_mul_orthogonal //; apply: orthogonal_trmx.
have HC : \tr (Y *m (X *m Q^T)^T) = \tr (Y^T *m X *m Q^T).
  by rewrite -mxtrace_tr trmx_mul trmxK mxtrace_mulC mulmxA.
have HC' : \tr (X *m Q^T *m Y^T) = \tr (Y^T *m X *m Q^T).
  by rewrite mxtrace_mulC mulmxA.
rewrite -HM -HC !fro_norm2_tr.
rewrite linearB /= linearZ /= mulmxBl !mulmxBr -!scalemxAl -!scalemxAr.
rewrite !raddfB /= !mxtraceZ.
have -> : \tr (X *m Q^T *m Y^T) = \tr (Y *m (X *m Q^T)^T) by rewrite HC HC'.
ring.
Qed.

(** Polar factor: if [A = c Q (G G^T)] with [Q] orthogonal and [c > 0], the
    orthogonal factor [U V] of any decomposition of [A] agrees with [Q] on the
    columns of [G]. *)
Lemma svd_polar (k m : nat) (A U V Q : 'M[F]_k) (s : 'rV[F]_k)
    (G : 'M[F]_(k, m)) (c : F) :
  svd_ok A (U, s, V) -> orthogonal Q -> 0 < c ->
  A = c *: (Q *m (G *m G^T)) -> U *m V *m G = Q *m G.
Proof.
move=> Hsvd HQ Hc HA.
have HR := svd_factor_orthogonal Hsvd.
have /andP [_ Hle] := svd_trace_bound Hsvd HQ.
rewrite -(svd_trace_factor Hsvd) in Hle.
set R := U *m V in HR Hle *.
have EQ : \tr (A *m Q^T) = c * \tr (G *m G^T).
  rewrite HA -scalemxAl mxtraceZ mxtrace_mulC mulmxA.
  by rewrite orthogonal_trmx_mul // mul1mx.
have ER : \tr (A *m R^T) = c * \tr (Q *m (G *m G^T) *m R^T).
  by rewrite HA -scalemxAl mxtraceZ.
rewrite EQ ER ler_pM2l // in Hle.
have ED := criterion_expand (G^T) (G^T *m Q^T) 1 HR.
rewrite trmx_mul !trmxK (fro_norm2_mul_orthogonal _ (orthogonal_trmx HQ)) in ED.
rewrite fro_norm2_trmx (fro_norm2_tr G) scale1r expr1n mul1r mulr1 in ED.
rewrite -!mulmxA in ED Hle.
have H0 : fro_norm2 (G^T *m R^T - G^T *m Q^T) = 0.
  have Hge := fro_norm2_ge0 (G^T *m R^T - G^T *m Q^T).
  rewrite ED in Hge *; lra.
have HD : (R *m G - Q *m G)^T = 0.
  by rewrite linearB /= trmx_mul (trmx_mul Q); exact: fro_norm2_eq0.
apply/eqP; rewrite -subr_eq0; apply/eqP.
by rewrite -[_ - _]trmxK HD trmx0.
Qed.

(** The quadratic step of the scaled criterion: with [sc = b / a], the value
    [sc^2 a - 2 sc b] is below [c^2 a - 2 c t] whenever [|t| <= b]. *)
Lemma scale_step (a b t c : F) :
  0 <= a -> (a = 0 -> b = 0) -> - b <= t <= b ->
  (b / a) ^+ 2 * a - 2 * (b / a) * b <= c ^+ 2 * a - 2 * c * t.
Proof.
move=> Ha Hab /andP [Htl Htu].
have [Ha0 | Hapos] := eqVneq a 0.
  move: Htl Htu; rewrite Ha0 (Hab Ha0) => Htl Htu.
  have -> : t = 0 by lra.
  by rewrite !(mulr0, mul0r, subrr).
set sc := b / a.
have Hb : sc * a = b by rewrite /sc divfK.
have Hu : c * t <= `|c| * b.
  have [Hc | Hc] := lerP 0 c.
    by rewrite ger0_norm //; apply: ler_wpM2l.
  rewrite ltr0_norm // mulNr -mulrN; apply: ler_wnM2l; [lra | lra].
have Hsq : c ^+ 2 = `|c| ^+ 2 by rewrite real_normK // num_real.
have Hdiff : c ^+ 2 * a - 2 * c * t - (sc ^+ 2 * a - 2 * sc * b) =
             a * (`|c| - sc) ^+ 2 + 2 * (`|c| * b - c * t).
  by rewrite Hsq -Hb; ring.
have Hnn : 0 <= a * (`|c| - sc) ^+ 2 by apply: mulr_ge0 => //; apply: sqr_ge0.
lra.
Qed.

End LinearAlgebra.

End ProcrustesFacts.

Module ProcrustesSolver.

Import Procrustes ProcrustesFacts.

Section Solver.

Variable F : realFieldType.
Variable svd : svd_oracle F.

(** Outside the degenerate case, the result is [U V] for a decomposition
    [U diag(s) V] of [Y^T X], whichever formulation computes it. *)
Lemma sp_nondegenerate (n p : nat) (X Y : 'M[F]_(n, p)) (scaling : bool)
    (primal : option bool) :
  Y != 0 -> decomp_ok svd X Y primal ->
  exists U s V, svd_ok (Y^T *m X) (U, s, V) /\
    scaled_procrustes svd X Y scaling primal =
    (U *m V, if scaling then (\sum_i s 0 i) / fro_norm2 X else 1).
Proof.
move=> HY; rewrite /decomp_ok /scaled_procrustes (negbTE HY).
case: (use_primal n p primal).
- by case: (svd (Y^T *m X)) => [[U s] V] H; exists U, s, V.
- case: (svd (X^T *m Y)) => [[U s] V] H; exists V^T, s, U^T; split.
  + by apply: svd_ok_trmx; rewrite trmx_mul trmxK.
  + by rewrite trmx_mul.
Qed.

Lemma sp_degenerate (n p : nat) (X : 'M[F]_(n, p)) (scaling : bool)
    (primal : option bool) :
  scaled_procrustes svd X 0 scaling primal =
  (1%:M, if scaling then 0 else 1).
Proof. by rewrite /scaled_procrustes eqxx. Qed.

Lemma sp_R_orthogonal (n p : nat) (X Y : 'M[F]_(n, p)) (scaling : bool)
    (primal : option bool) :
  decomp_ok svd X Y primal ->
  orthogonal (scaled_procrustes svd X Y scaling primal).1.
Proof.
move=> Hd; have [-> | HY] := eqVneq Y 0.
  by rewrite sp_degenerate; apply: orthogonal1.
have [U [s [V [Hsvd ->]]]] := sp_nondegenerate scaling HY Hd.
exact: svd_factor_orthogonal Hsvd.
Qed.

Lemma fro_norm2_0 (m k : nat) : fro_norm2 (0 : 'M[F]_(m, k)) = 0.
Proof. by rewrite fro_norm2_tr mul0mx mxtrace0. Qed.

(** Modelled from the spec: C1 (amended). The returned [R] is orthogonal and minimizes
    [||X R^T - Y||^2] (that is, [||Y R - X||^2]) over orthogonal matrices;
    with [scaling], the pair [(R, scale)] minimizes [||c X Q^T - Y||^2] over
    all scalars [c] and orthogonal [Q]. *)
Theorem scaled_procrustes_optimal (n p : nat) (X Y : 'M[F]_(n, p))
    (scaling : bool) (primal : option bool) :
  decomp_ok svd X Y primal ->
  let: (R, sc) := scaled_procrustes svd X Y scaling primal in
  [/\ orthogonal R,
      (forall Q, orthogonal Q ->
         fro_norm2 (X *m R^T - Y) <= fro_norm2 (X *m Q^T - Y)) &
      (scaling -> forall (c : F) Q, orthogonal Q ->
         fro_norm2 (sc *: (X *m R^T) - Y) <= fro_norm2 (c *: (X *m Q^T) - Y))].
Proof.
move=> Hd; have [-> | HY] := eqVneq Y 0.
  rewrite sp_degenerate; split; first exact: orthogonal1.
  - move=> Q HQ; rewrite trmx1 mulmx1 !subr0 fro_norm2_mul_orthogonal //.
    exact: orthogonal_trmx.
  - by move=> -> c Q HQ; rewrite scale0r subr0 fro_norm2_0 fro_norm2_ge0.
have [U [s [V [Hsvd ->]]]] := sp_nondegenerate scaling HY Hd.
have HR := svd_factor_orthogonal Hsvd; have Hb := svd_trace_factor Hsvd.
split => //.
- move=> Q HQ; have /andP [Htl Htu] := svd_trace_bound Hsvd HQ.
  rewrite -[X *m (U *m V)^T]scale1r -[X *m Q^T]scale1r.
  rewrite !criterion_expand // Hb !expr1n !mul1r !mulr1; lra.
- move=> -> c Q HQ; have Ht := svd_trace_bound Hsvd HQ.
  rewrite !criterion_expand // Hb lerD2r.
  apply: scale_step => //; first exact: fro_norm2_ge0.
  move=> /fro_norm2_eq0 HX0.
  by rewrite -Hb HX0 mulmx0 mul0mx mxtrace0.
Qed.

Lemma sp_scale_unscaled (n p : nat) (X Y : 'M[F]_(n, p))
    (primal : option bool) :
  (scaled_procrustes svd X Y false primal).2 = 1.
Proof.
rewrite /scaled_procrustes; case: eqP => // _.
by case: use_primal; case: svd => [[U s] V].
Qed.

(** Modelled from the spec: C7. Every [R] returned by [scaled_procrustes] is orthogonal on both
    sides: [R R^T = I] and [R^T R = I]. *)
Theorem scaled_procrustes_basis_orthogonal (n p : nat) (X Y : 'M[F]_(n, p))
    (scaling : bool) (primal : option bool) :
  decomp_ok svd X Y primal ->
  let R := (scaled_procrustes svd X Y scaling primal).1 in
  R *m R^T = 1%:M /\ R^T *m R = 1%:M.
Proof.
move=> Hd /=; have HR := sp_R_orthogonal scaling Hd.
by split; [exact: HR | exact: orthogonal_trmx_mul].
Qed.

(** Modelled from the spec: C5. With [Y] the zero matrix, the returned [R] is the identity. *)
Theorem scaled_procrustes_null_input (n p : nat) (X : 'M[F]_(n, p))
    (scaling : bool) (primal : option bool) :
  (scaled_procrustes svd X 0 scaling primal).1 = 1%:M.
Proof. by rewrite sp_degenerate. Qed.

Lemma row_full_zero_square (n p : nat) (X : 'M[F]_(n, p)) (A B : 'M[F]_p) :
  row_full X -> X = 0 -> A = B.
Proof.
rewrite /row_full => /eqP Hr HX; move: Hr; rewrite HX mxrank0 => Hp.
by move: A B; rewrite -Hp => A B; apply/matrixP => -[].
Qed.

(** Modelled from the spec: C3 (amended). For [X] of full column rank and any orthogonal [Q],
    [scaled_procrustes X (X Q^T)] returns [Q] exactly.  In the test,
    [scaled_procrustes(X.T, (R X).T)] has this form, with [X.T] in the role
    of [X]. *)
Theorem scaled_procrustes_recovers (n p : nat) (X : 'M[F]_(n, p))
    (Q : 'M[F]_p) (scaling : bool) (primal : option bool) :
  row_full X -> orthogonal Q -> decomp_ok svd X (X *m Q^T) primal ->
  (scaled_procrustes svd X (X *m Q^T) scaling primal).1 = Q.
Proof.
move=> Hfull HQ Hd; have [HY | HY] := eqVneq (X *m Q^T) 0.
  apply: (row_full_zero_square _ _ Hfull).
  by rewrite -[X]mulmx1 -(orthogonal_trmx_mul HQ) mulmxA HY mul0mx.
have [U [s [V [Hsvd ->]]]] := sp_nondegenerate scaling HY Hd.
have HA : (X *m Q^T)^T *m X = 1 *: (Q *m (X^T *m X^T^T)).
  by rewrite scale1r trmxK trmx_mul trmxK mulmxA.
have HUV := svd_polar Hsvd HQ ltr01 HA.
apply: trmx_inj; apply: (row_full_inj Hfull).
by rewrite -[X]trmxK -!trmx_mul HUV.
Qed.

(** Modelled from the spec: C6 (amended). With [scaling],
    [scaled_procrustes X (c X)] returns [R = I] and scale [c] when [c = 0]
    (any [X]), and when [c > 0] and [X] is nonzero of full column rank;
    without [scaling] the returned scale is 1 for every input. *)
Theorem scaled_procrustes_multiplication (n p : nat) (X : 'M[F]_(n, p))
    (c : F) (primal : option bool) :
  (c = 0 \/ [/\ 0 < c, row_full X, X != 0 & decomp_ok svd X (c *: X) primal]) ->
  scaled_procrustes svd X (c *: X) true primal = (1%:M, c) /\
  (forall X' Y : 'M[F]_(n, p), (scaled_procrustes svd X' Y false primal).2 = 1).
Proof.
move=> Hcase; split; last by move=> X' Y; exact: sp_scale_unscaled.
case: Hcase => [-> | [Hc Hfull HX Hd]]; first by rewrite scale0r sp_degenerate.
have HY : c *: X != 0 by rewrite scaler_eq0 negb_or HX andbT; apply: lt0r_neq0.
have [U [s [V [Hsvd ->]]]] := sp_nondegenerate true HY Hd.
have HA : (c *: X)^T *m X = c *: (1%:M *m (X^T *m X^T^T)).
  by rewrite linearZ /= -scalemxAl mul1mx trmxK.
have HUV := svd_polar Hsvd (orthogonal1 _ _) Hc HA.
have HR : U *m V = 1%:M.
  apply: trmx_inj; apply: (row_full_inj Hfull).
  by rewrite -[X]trmxK -!trmx_mul HUV.
have Hfro : fro_norm2 X != 0.
  by apply: contraNneq HX => /fro_norm2_eq0 ->.
rewrite HR -(svd_trace_factor Hsvd) HR trmx1 mulmx1 linearZ /= -scalemxAl.
by rewrite mxtraceZ -fro_norm2_tr' mulfK.
Qed.

(** Modelled from the spec: C4 (amended). For any [X] and orthogonal [Q], with [Y = Q X], a
    [ScaledOrthogonalAlignment] (either value of [scaling]) fitted on the
    sample-by-feature pair [(X^T, Y^T)] maps [X] onto [Y] exactly. *)
Theorem scaled_orthogonal_alignment_roundtrip (p m : nat)
    (a : ScaledOrthogonalAlignment) (X : 'M[F]_(p, m)) (Q : 'M[F]_p) :
  orthogonal Q -> decomp_ok svd X^T (Q *m X)^T None ->
  so_transform (so_fit svd a X^T (Q *m X)^T) X = Q *m X.
Proof.
move=> HQ Hd; rewrite /so_fit /so_transform.
have [HY | HY] := eqVneq (Q *m X)^T 0.
  have HQX : Q *m X = 0 by rewrite -[Q *m X]trmxK HY trmx0.
  have HX0 : X = 0.
    by rewrite -[X]mul1mx -(orthogonal_trmx_mul HQ) -mulmxA HQX mulmx0.
  rewrite HY sp_degenerate -scalemxAl mul1mx HQX HX0.
  exact: scaler0.
have [U [s [V [Hsvd ->]]]] := sp_nondegenerate (so_scaling a) HY Hd.
have HA : (Q *m X)^T^T *m X^T = 1 *: (Q *m (X *m X^T)).
  by rewrite scale1r trmxK mulmxA.
have HUV := svd_polar Hsvd HQ ltr01 HA.
have HX : X != 0.
  by apply: contraNneq HY => ->; rewrite mulmx0 trmx0.
have Hs : (\sum_i s 0 i) / fro_norm2 X^T = 1.
  rewrite -(svd_trace_factor Hsvd) trmxK -mulmxA -trmx_mul HUV.
  rewrite -fro_norm2_tr -fro_norm2_trmx trmx_mul.
  rewrite (fro_norm2_mul_orthogonal _ (orthogonal_trmx HQ)) divff //.
  by rewrite fro_norm2_trmx; apply: contraNneq HX => /fro_norm2_eq0 ->.
by case: (so_scaling a) => /=; rewrite ?Hs scale1r HUV.
Qed.

End Solver.

End ProcrustesSolver.

Module Mx2Facts.

Import Procrustes ProcrustesFacts Instances.

Lemma mx2E (a b c d : rat) (i j : 'I_2) :
  mx2 a b c d i j =
  if (i : nat) == 0%N then (if (j : nat) == 0%N then a else b)
  else (if (j : nat) == 0%N then c else d).
Proof. by rewrite mxE. Qed.

Lemma mx2_eq (A : 'M[rat]_2) :
  A = mx2 (A 0 0) (A 0 1) (A 1 0) (A 1 1).
Proof.
apply/matrixP => i j; rewrite mx2E.
by case: i => [[|[|//]] Hi]; case: j => [[|[|//]] Hj] /=;
  congr (A _ _); apply: val_inj.
Qed.

Lemma mx2_inj (a b c d a' b' c' d' : rat) :
  mx2 a b c d = mx2 a' b' c' d' -> [/\ a = a', b = b', c = c' & d = d'].
Proof.
move/matrixP => H.
by split; [move: (H 0 0) | move: (H 0 1) | move: (H 1 0) | move: (H 1 1)];
  rewrite !mx2E.
Qed.

Lemma mx2_mul (a b c d e f g h : rat) :
  mx2 a b c d *m mx2 e f g h =
  mx2 (a * e + b * g) (a * f + b * h) (c * e + d * g) (c * f + d * h).
Proof.
apply/matrixP => i j; rewrite !mxE !big_ord_recl big_ord0 addr0 !mx2E.
by case: i => [[|[|//]] Hi]; case: j => [[|[|//]] Hj].
Qed.

Lemma mx2_tr (a b c d : rat) : (mx2 a b c d)^T = mx2 a c b d.
Proof.
apply/matrixP => i j; rewrite !mxE.
by case: i => [[|[|//]] Hi]; case: j => [[|[|//]] Hj].
Qed.

Lemma mx2_1 : (1%:M : 'M[rat]_2) = mx2 1 0 0 1.
Proof.
apply/matrixP => i j; rewrite !mxE.
by case: i => [[|[|//]] Hi]; case: j => [[|[|//]] Hj].
Qed.

Lemma mx2_0 : (0 : 'M[rat]_2) = mx2 0 0 0 0.
Proof.
apply/matrixP => i j; rewrite !mxE.
by case: i => [[|[|//]] Hi]; case: j => [[|[|//]] Hj].
Qed.

Lemma mx2_scale (x a b c d : rat) :
  x *: mx2 a b c d = mx2 (x * a) (x * b) (x * c) (x * d).
Proof.
apply/matrixP => i j; rewrite !mxE.
by case: i => [[|[|//]] Hi]; case: j => [[|[|//]] Hj].
Qed.

Lemma mx2_sub (a b c d a' b' c' d' : rat) :
  mx2 a b c d - mx2 a' b' c' d' = mx2 (a - a') (b - b') (c - c') (d - d').
Proof.
apply/matrixP => i j; rewrite !mxE.
by case: i => [[|[|//]] Hi]; case: j => [[|[|//]] Hj].
Qed.

Lemma mx2_add (a b c d a' b' c' d' : rat) :
  mx2 a b c d + mx2 a' b' c' d' = mx2 (a + a') (b + b') (c + c') (d + d').
Proof.
apply/matrixP => i j; rewrite !mxE.
by case: i => [[|[|//]] Hi]; case: j => [[|[|//]] Hj].
Qed.

Lemma mx2_opp (a b c d : rat) : - mx2 a b c d = mx2 (- a) (- b) (- c) (- d).
Proof.
apply/matrixP => i j; rewrite !mxE.
by case: i => [[|[|//]] Hi]; case: j => [[|[|//]] Hj].
Qed.

Lemma diag_row2 (a b : rat) : diag_mx (row2 a b) = mx2 a 0 0 b.
Proof.
apply/matrixP => i j; rewrite !mxE.
by case: i => [[|[|//]] Hi]; case: j => [[|[|//]] Hj].
Qed.

Lemma sum_row2 (a b : rat) : \sum_i row2 a b 0 i = a + b.
Proof. by rewrite !big_ord_recl big_ord0 addr0 !mxE. Qed.

Lemma row2_ge0 (a b : rat) : 0 <= a -> 0 <= b -> forall i, 0 <= row2 a b 0 i.
Proof. by move=> Ha Hb i; rewrite mxE; case: ifP. Qed.

Lemma fro_norm2_mx2 (a b c d : rat) :
  fro_norm2 (mx2 a b c d) = a ^+ 2 + b ^+ 2 + (c ^+ 2 + d ^+ 2).
Proof. by rewrite /fro_norm2 !big_ord_recl !big_ord0 !addr0 !mx2E. Qed.

Lemma det_mx2 (a b c d : rat) : \det (mx2 a b c d) = a * d - b * c.
Proof.
rewrite (expand_det_row _ 0) !big_ord_recl big_ord0 addr0.
rewrite /cofactor !det_mx11 !mxE /=.
by rewrite !expr0 !expr1 !mul1r !mulN1r mulrN.
Qed.

Lemma svd_fixed2 (U : 'M[rat]_2) (s : 'rV[rat]_2) (V A : 'M[rat]_2) :
  svd_fixed U s V A = (U, s, V).
Proof. by []. Qed.

Lemma orthogonal_mx2 (a b c d : rat) :
  mx2 a b c d *m (mx2 a b c d)^T = mx2 1 0 0 1 -> orthogonal (mx2 a b c d).
Proof. by rewrite /orthogonal mx2_1. Qed.

Lemma rot90_orthogonal : orthogonal rot90.
Proof. by apply: orthogonal_mx2; rewrite mx2_tr mx2_mul. Qed.

Lemma rot90_det : \det rot90 = 1.
Proof. by rewrite det_mx2. Qed.

Lemma I2_row_full : row_full I2.
Proof. by rewrite /row_full mxrank1. Qed.

End Mx2Facts.

Module Counterexamples.

Import Procrustes ProcrustesFacts ProcrustesSolver Instances Mx2Facts.

Ltac mx2_simpl :=
  rewrite /I2 /rot90 /E11 ?(mx2_1, mx2_0, diag_row2, mx2_tr, mx2_scale,
    mx2_mul, mx2_sub, mx2_opp, mx2_add, fro_norm2_mx2, sum_row2).

Lemma rot90_neq0 : rot90 != 0.
Proof. by rewrite /rot90 mx2_0; apply/eqP => /mx2_inj [_ H _ _]. Qed.

Lemma svd_orth_ok (Q : 'M[rat]_2) :
  orthogonal Q -> svd_ok Q (svd_orth Q Q).
Proof.
move=> HQ; rewrite /svd_orth svd_fixed2; split => //.
- exact: orthogonal1.
- exact: row2_ge0.
- by rewrite /I2 diag_row2 -mx2_1 !mulmx1.
Qed.

Ltac decomp_tac :=
  rewrite /decomp_ok /= ?svd_fixed2; split;
  [ rewrite /orthogonal; by mx2_simpl
  | rewrite /orthogonal; by mx2_simpl
  | by apply: row2_ge0
  | by mx2_simpl ].

Lemma decomp_ok_I2_rot90 : decomp_ok (svd_orth rot90^T) I2 rot90 None.
Proof.
rewrite /decomp_ok /= mulmx1; apply: svd_orth_ok.
exact: orthogonal_trmx rot90_orthogonal.
Qed.

Lemma decomp_ok_I2_rot90I2 :
  decomp_ok (svd_orth rot90^T) I2 (rot90 *m I2) None.
Proof. by rewrite mulmx1; apply: decomp_ok_I2_rot90. Qed.

Lemma decomp_ok_recover : decomp_ok (svd_orth rot90) I2 (I2 *m rot90^T) None.
Proof.
rewrite /decomp_ok /=.
have -> : (I2 *m rot90^T)^T *m I2 = rot90 by rewrite /I2 mul1mx trmxK mulmx1.
apply: svd_orth_ok.
exact: rot90_orthogonal.
Qed.

Lemma decomp_ok_roundtrip :
  decomp_ok (svd_orth rot90) I2^T (rot90 *m I2)^T None.
Proof.
rewrite /decomp_ok /=.
have -> : (rot90 *m I2)^T^T *m I2^T = rot90 by rewrite /I2 trmxK trmx1 !mulmx1.
apply: svd_orth_ok.
exact: rot90_orthogonal.
Qed.

Lemma decomp_ok_twice : decomp_ok svd_twice I2 (2 *: I2) None.
Proof. by rewrite /svd_twice; decomp_tac. Qed.

Lemma sp_I2_rot90 (scaling : bool) :
  scaled_procrustes (svd_orth rot90^T) I2 rot90 scaling None =
  (rot90^T, if scaling then 2 / 2 else 1).
Proof.
rewrite /scaled_procrustes (negbTE rot90_neq0) /= mulmx1 /svd_orth ?svd_fixed2.
by rewrite sum_row2 /I2 mx2_1 fro_norm2_mx2.
Qed.

(** Modelled from the spec: C1, counterexample. The returned [R] does not minimize [||X R - Y||^2]: at [X = I],
    [Y = rot90] it returns [rot90^T], with [||X R - Y||^2 = 8], while
    [rot90] itself reaches 0. *)
Lemma scaled_procrustes_XR_not_minimal :
  decomp_ok (svd_orth rot90^T) I2 rot90 None /\
  ~ (forall Q : 'M[rat]_2, orthogonal Q ->
       fro_norm2 (I2 *m (scaled_procrustes (svd_orth rot90^T) I2 rot90
                                             false None).1 - rot90)
       <= fro_norm2 (I2 *m Q - rot90)).
Proof.
split; first exact: decomp_ok_I2_rot90.
rewrite sp_I2_rot90 /= => /(_ rot90 rot90_orthogonal).
by mx2_simpl.
Qed.

(** Modelled from the spec: C3, counterexample. The claim fails three ways.  Passing [(X, R X)] with [X = I] and the
    rotation [rot90] returns [rot90^T]; the zero input returns the identity;
    and at the rank-one [X = E11] with the rotation [-I], a valid
    decomposition gives [diag(-1, 1)]. *)
Lemma scaled_procrustes_RX_not_recovered :
  [/\ orthogonal rot90 /\ \det rot90 = 1,
      decomp_ok (svd_orth rot90^T) I2 (rot90 *m I2) None /\
      (scaled_procrustes (svd_orth rot90^T) I2 (rot90 *m I2) false None).1
        <> rot90,
      (scaled_procrustes (svd_orth rot90^T) 0 (rot90 *m 0) false None).1
        <> rot90 &
      [/\ orthogonal (- I2), \det (- I2) = 1,
          decomp_ok svd_flipU E11 (- I2 *m E11) None &
          (scaled_procrustes svd_flipU E11 (- I2 *m E11) false None).1
            <> - I2]].
Proof.
split.
- by split; [exact: rot90_orthogonal | exact: rot90_det].
- split; first exact: decomp_ok_I2_rot90I2.
  by rewrite mulmx1 sp_I2_rot90 /=; mx2_simpl => /mx2_inj [].
- by rewrite mulmx0 sp_degenerate /=; mx2_simpl => /mx2_inj [].
- split.
  + by rewrite /orthogonal; mx2_simpl.
  + by rewrite /I2 mx2_1 mx2_opp det_mx2.
  + by rewrite /svd_flipU; decomp_tac.
  + have HY : - I2 *m E11 != 0.
      by mx2_simpl; apply/eqP => /mx2_inj [].
    rewrite /scaled_procrustes (negbTE HY) /= /svd_flipU ?svd_fixed2 /=.
    by mx2_simpl => /mx2_inj [].
Qed.

(** Modelled from the spec: C4, counterexample. In one layout the round trip fails.  At [X = I] and
    [Y = rot90 = rot90 X = X rot90], an orthogonal transform of [X] either
    way, [fit(X, Y).transform(X)] is [rot90^T], not [Y]. *)
Lemma scaled_orthogonal_alignment_same_layout_fails :
  [/\ orthogonal rot90,
      decomp_ok (svd_orth rot90^T) I2 (rot90 *m I2) None &
      so_transform (so_fit (svd_orth rot90^T) {| so_scaling := false |}
                           I2 (rot90 *m I2)) I2 <> rot90 *m I2].
Proof.
split; [exact: rot90_orthogonal | exact: decomp_ok_I2_rot90I2 |].
rewrite /so_fit /so_transform /= [rot90 *m I2]mulmx1 sp_I2_rot90 /= scale1r mulmx1.
by mx2_simpl => /mx2_inj [].
Qed.

(** Modelled from the spec: C6, counterexample. The claim fails for [c = -1] (R = -I, scale 1), for the zero
    input [X = 0] with [c = 1] (scale 0), and at the rank-one [X = E11] with [c = 1], where a
    valid decomposition gives [R = diag(1, -1)]. *)
Lemma scaled_procrustes_multiplication_fails :
  [/\ decomp_ok (svd_orth (- I2)) I2 ((-1) *: I2) None /\
      scaled_procrustes (svd_orth (- I2)) I2 ((-1) *: I2) true None
        <> (1%:M, -1),
      scaled_procrustes svd_twice (0 : 'M[rat]_2) (1 *: 0) true None
        <> (1%:M, 1) &
      decomp_ok svd_flipV E11 (1 *: E11) None /\
      scaled_procrustes svd_flipV E11 (1 *: E11) true None <> (1%:M, 1)].
Proof.
have HN : orthogonal (- I2) by apply: orthogonalN; apply: orthogonal1.
split.
- have HA : ((-1) *: I2)^T *m I2 = - I2.
    by rewrite /I2 mulmx1 linearZ /= trmx1 scaleN1r.
  split; first by rewrite /decomp_ok /= HA; apply: svd_orth_ok.
  have HY : (-1) *: I2 != 0 by mx2_simpl; apply/eqP => /mx2_inj [].
  rewrite /scaled_procrustes (negbTE HY) /=.
  by mx2_simpl => -[_] /eqP.
- by rewrite scaler0 sp_degenerate => -[] /eqP.
- split; first by rewrite /svd_flipV; decomp_tac.
  have HY : 1 *: E11 != 0 by mx2_simpl; apply/eqP => /mx2_inj [].
  rewrite /scaled_procrustes (negbTE HY) /=.
  by mx2_simpl => -[] /mx2_inj [].
Qed.

End Counterexamples.


Module Witnesses.

Import Procrustes ProcrustesFacts ProcrustesSolver Instances Mx2Facts
  Counterexamples.

Lemma I2_neq0 : I2 != 0.
Proof. by rewrite /I2 mx2_1 mx2_0; apply/eqP => /mx2_inj []. Qed.

Lemma scaled_procrustes_optimal_witness :
  decomp_ok (svd_orth rot90^T) I2 rot90 None /\
  let: (R, sc) := scaled_procrustes (svd_orth rot90^T) I2 rot90 true None in
  [/\ orthogonal R,
      (forall Q, orthogonal Q ->
         fro_norm2 (I2 *m R^T - rot90) <= fro_norm2 (I2 *m Q^T - rot90)) &
      (true -> forall (c : rat) Q, orthogonal Q ->
         fro_norm2 (sc *: (I2 *m R^T) - rot90)
         <= fro_norm2 (c *: (I2 *m Q^T) - rot90))].
Proof.
split; first exact: decomp_ok_I2_rot90.
exact: (scaled_procrustes_optimal true decomp_ok_I2_rot90).
Defined.

Lemma scaled_procrustes_basis_orthogonal_witness :
  decomp_ok (svd_orth rot90^T) I2 rot90 None /\
  let R := (scaled_procrustes (svd_orth rot90^T) I2 rot90 false None).1 in
  R *m R^T = 1%:M /\ R^T *m R = 1%:M.
Proof.
split; first exact: decomp_ok_I2_rot90.
exact: (scaled_procrustes_basis_orthogonal false decomp_ok_I2_rot90).
Defined.

Lemma scaled_procrustes_recovers_witness :
  [/\ row_full I2, orthogonal rot90,
      decomp_ok (svd_orth rot90) I2 (I2 *m rot90^T) None &
      (scaled_procrustes (svd_orth rot90) I2 (I2 *m rot90^T) false None).1
        = rot90].
Proof.
split; [exact: I2_row_full | exact: rot90_orthogonal | exact: decomp_ok_recover |].
exact: (scaled_procrustes_recovers false
          I2_row_full rot90_orthogonal decomp_ok_recover).
Defined.

Lemma scaled_procrustes_multiplication_witness :
  [/\ (0 : rat) < 2, row_full I2, I2 != 0 & decomp_ok svd_twice I2 (2 *: I2) None] /\
  (scaled_procrustes svd_twice I2 (2 *: I2) true None = (1%:M, 2) /\
   (forall X' Y : 'M[rat]_2, (scaled_procrustes svd_twice X' Y false None).2 = 1)).
Proof.
have H2 : (0 : rat) < 2 by [].
have Hh : [/\ (0 : rat) < 2, row_full I2, I2 != 0 & decomp_ok svd_twice I2 (2 *: I2) None].
  by split; [exact: H2 | exact: I2_row_full | exact: I2_neq0 | exact: decomp_ok_twice].
split; first exact: Hh.
exact: (scaled_procrustes_multiplication (or_intror Hh)).
Defined.

Lemma scaled_orthogonal_alignment_roundtrip_witness :
  [/\ orthogonal rot90,
      decomp_ok (svd_orth rot90) I2^T (rot90 *m I2)^T None &
      so_transform (so_fit (svd_orth rot90) {| so_scaling := true |}
                           I2^T (rot90 *m I2)^T) I2 = rot90 *m I2].
Proof.
split; [exact: rot90_orthogonal | exact: decomp_ok_roundtrip |].
exact: (scaled_orthogonal_alignment_roundtrip {| so_scaling := true |}
          rot90_orthogonal decomp_ok_roundtrip).
Defined.

End Witnesses.

Module MethodsFacts.

Import Errors Methods.

Section Lifecycle.

Variables (mat transformation : Type).
Variable solve : variant -> mat -> mat -> transformation.
Variable apply_transformation : transformation -> mat -> mat.

Lemma run_unfitted (a : AlignmentMethod transformation) (cs : seq (call mat)) :
  am_state a = None -> ~~ has (@is_fit mat) cs ->
  run solve apply_transformation a cs = nseq (size cs) (Err NotFittedError).
Proof.
move=> Ha; elim: cs => [|[X Y|Z] cs IH] //= Hcs.
by rewrite /am_transform Ha IH.
Qed.

(** Modelled from the spec: C9. For every variant (identity, permutation,
    scaled-orthogonal, optimal-transport, ridge), on a freshly constructed
    object on which [fit] is never called, every [transform] call raises
    [NotFittedError]. *)
Theorem transform_before_fit_raises (v : variant) (cs : seq (call mat)) :
  ~~ has (@is_fit mat) cs ->
  run solve apply_transformation (make transformation v) cs
  = nseq (size cs) (Err NotFittedError).
Proof. exact: run_unfitted. Qed.

End Lifecycle.

End MethodsFacts.

Module PiecewiseFacts.

Import Errors Piecewise.

Section SinglePiece.

Variables (T : Type) (d : T).
Variable cluster : nat -> nat -> seq nat.
Variable state : Type.
Variable method_fit : SampleMatrix T -> SampleMatrix T -> state.
Variable method_transform : state -> SampleMatrix T -> SampleMatrix T.

Lemma region_cols_single (p : nat) :
  region_cols (nseq p 0%N) 0 = iota 0 p.
Proof.
rewrite /region_cols size_nseq -[RHS]filter_predT.
by apply: eq_filter => c; rewrite nth_nseq; case: ifP.
Qed.

Lemma map_nth_iota (s : seq T) (p : nat) :
  size s = p -> [seq nth d s c | c <- iota 0 p] = s.
Proof. by move=> <-; exact: (mkseq_nth d s). Qed.

Lemma map_rows_iota (p : nat) (rs : seq (seq T)) :
  all (fun r => size r == p) rs ->
  [seq [seq nth d r c | c <- iota 0 p] | r <- rs] = rs.
Proof.
elim: rs => //= r rs IH /andP [/eqP Hr Hrs].
by rewrite map_nth_iota // IH.
Qed.

Lemma select_cols_all (M : SampleMatrix T) :
  well_formed M -> select_cols d (iota 0 (ncols M)) M = M.
Proof.
case: M => p rs /= Hrs; rewrite /select_cols /= size_iota.
by rewrite map_rows_iota.
Qed.

Lemma index_iota0 (p c : nat) : (c < p)%N -> index c (iota 0 p) = c.
Proof.
move=> Hc.
have {1}-> : c = nth 0%N (iota 0 p) c by rewrite nth_iota.
by rewrite index_uniq ?size_iota ?iota_uniq.
Qed.

Lemma record_eta (M : SampleMatrix T) :
  {| ncols := ncols M; rows := rows M |} = M.
Proof. by case: M. Qed.

End SinglePiece.

Section SinglePieceEquiv.

Variables (T : Type) (d : T).
Variable cluster : nat -> nat -> seq nat.
Variable state : Type.
Variable method_fit : SampleMatrix T -> SampleMatrix T -> state.
Variable method_transform : state -> SampleMatrix T -> SampleMatrix T.

(** An alignment maps a sample matrix to one of the same shape. *)
Hypothesis transform_shape : forall s Z, well_formed Z ->
  well_formed (method_transform s Z) /\ shape (method_transform s Z) = shape Z.

(** Modelled from the spec: C8 (amended). For fitting matrices [X], [Y] of the
    same shape with at least one feature, and a new input [Z] with the same
    number of features, the orchestrator with [n_pieces = 1] returns exactly
    what the configured method returns when fitted on the full [X], [Y] and
    applied to [Z]. *)
Theorem piecewise_single_piece_equiv (X Y Z : SampleMatrix T) :
  (0 < ncols X)%N -> shape X = shape Y ->
  well_formed X -> well_formed Y -> well_formed Z -> ncols Z = ncols X ->
  pw_fit_transform d cluster method_fit method_transform 1 X Y Z
  = Ok (direct_fit_transform method_fit method_transform X Y Z).
Proof.
move=> Hp Hs HX HY HZ HZX.
have HpY : ncols Y = ncols X by case: Hs.
rewrite /pw_fit_transform /pw_fit Hs eqxx /=.
rewrite /partition /= ltnNge Hp /= region_cols_single {1}HZX size_nseq eqxx /=.
have EY : select_cols d (iota 0 (ncols X)) Y = Y by rewrite -HpY select_cols_all.
have EZ : select_cols d (iota 0 (ncols X)) Z = Z by rewrite -HZX select_cols_all.
rewrite (select_cols_all d HX) EY EZ.
rewrite /direct_fit_transform.
set O := method_transform _ Z.
have [HO HsO] := transform_shape (method_fit X Y) HZ.
case: HsO => HrO HcO.
rewrite -[in RHS](record_eta O); congr Ok; congr {| ncols := _; rows := _ |}.
  by rewrite HcO.
apply: (@eq_from_nth _ [::]); first by rewrite size_mkseq HrO.
move=> i; rewrite size_mkseq => Hi; rewrite nth_mkseq //.
have Hrow : size (nth [::] (rows O) i) = ncols Z.
  rewrite -HcO; apply/eqP; move: HO => /(all_nthP [::]); apply.
  by rewrite HrO.
apply: (@eq_from_nth _ d); first by rewrite size_map size_iota Hrow HZX.
move=> c; rewrite size_map size_iota => Hc.
rewrite (nth_map 0%N) ?size_iota // nth_iota // add0n.
by rewrite nth_nseq Hc region_cols_single index_iota0.
Qed.

End SinglePieceEquiv.

End PiecewiseFacts.

Module PiecewiseCounterexamples.

Import Errors Piecewise PiecewiseInstances.

(** Modelled from the spec: C8, counterexample. With no feature at all, [n_pieces = 1] exceeds the feature count:
    the orchestrator raises [InvalidConfiguration], while the identity method
    fitted directly returns its input. *)
Lemma piecewise_single_piece_no_features :
  pw_fit_transform 0%N one_cluster identity_fit identity_transform 1
    no_features no_features no_features
  <> Ok (direct_fit_transform identity_fit identity_transform
           no_features no_features no_features).
Proof. by []. Qed.

End PiecewiseCounterexamples.

Module PiecewiseWitnesses.

Import Errors Piecewise PiecewiseInstances Methods MethodsFacts PiecewiseFacts.

Lemma identity_transform_shape (s : unit) (Z : SampleMatrix nat) :
  well_formed Z ->
  well_formed (identity_transform s Z) /\ shape (identity_transform s Z) = shape Z.
Proof. by []. Qed.

Lemma piecewise_single_piece_equiv_witness :
  (forall s Z, well_formed Z ->
     well_formed (identity_transform s Z) /\
     shape (identity_transform s Z) = shape Z) /\
  [/\ (0 < ncols one_feature)%N, shape one_feature = shape one_feature,
      well_formed one_feature, ncols one_feature = ncols one_feature &
      pw_fit_transform 0%N one_cluster identity_fit identity_transform 1
        one_feature one_feature one_feature
      = Ok (direct_fit_transform identity_fit identity_transform
              one_feature one_feature one_feature)].
Proof.
split; first exact: identity_transform_shape.
split; [by [] | by [] | by [] | by [] |].
apply: (@piecewise_single_piece_equiv nat 0%N one_cluster unit identity_fit
          identity_transform identity_transform_shape).
all: by [].
Defined.

Lemma transform_before_fit_raises_witness :
  ~~ has (@is_fit nat) [:: CallTransform 3%N; CallTransform 4%N] /\
  run nat_solve nat_apply (make nat Ridge)
      [:: CallTransform 3%N; CallTransform 4%N]
  = nseq 2 (Err NotFittedError).
Proof.
split; first by [].
exact: (transform_before_fit_raises nat_solve nat_apply Ridge
          (cs := [:: CallTransform 3%N; CallTransform 4%N]) is_true_true).
Defined.

End PiecewiseWitnesses.

Module TestDataFacts.

Import TestData.

Section Centering.

Variable F : realFieldType.

Lemma center_row_sum0 (n p : nat) (X : 'M[F]_(n, p)) (i : 'I_n) :
  \sum_j center X i j = 0.
Proof.
rewrite /center /row_mean.
under eq_bigr do rewrite !mxE.
rewrite sumrB sumr_const card_ord -mulr_natr.
case: p X i => [|p] X i; first by rewrite big_ord0 mulr0 subr0.
by rewrite divfK ?subrr // pnatr_eq0.
Qed.

Lemma center_center (n p : nat) (X : 'M[F]_(n, p)) : center (center X) = center X.
Proof.
apply/matrixP => i j.
by rewrite {1}/center /row_mean !mxE center_row_sum0 mul0r subr0.
Qed.

Lemma center_mulmx (m n p : nat) (A : 'M[F]_(m, n)) (X : 'M[F]_(n, p)) :
  center (A *m X) = A *m center X.
Proof.
apply/matrixP => i j; rewrite /center /row_mean !mxE.
under [X in _ = X]eq_bigr do rewrite !mxE mulrBr.
rewrite sumrB; congr (_ - _).
under eq_bigr do rewrite mxE.
rewrite exchange_big mulr_suml; apply: eq_bigr => l _.
by rewrite -mulr_sumr mulrA.
Qed.

(** Every row of [X - X.mean(axis=1, keepdims=True)] sums to zero (for any
    number of columns, an empty row summing to zero). *)
Theorem center_rows_sum_zero (n p : nat) (X : 'M[F]_(n, p)) (i : 'I_n) :
  \sum_j center X i j = 0.
Proof. exact: center_row_sum0. Qed.

(** Centering the rows of an already row-centered matrix changes nothing. *)
Theorem center_idempotent (n p : nat) (X : 'M[F]_(n, p)) :
  center (center X) = center X.
Proof. exact: center_center. Qed.

(** Row-centering commutes with multiplication on the left: centering
    [A X] gives [A] times the centered [X]; and so [Y = R.dot(X)] built from a
    row-centered [X] is itself row-centered: centering it changes nothing. *)
Theorem center_left_mul (m n p : nat) (A : 'M[F]_(m, n)) (X : 'M[F]_(n, p)) :
  center (A *m X) = A *m center X /\
  center (A *m center X) = A *m center X.
Proof. by rewrite !center_mulmx center_center. Qed.

(** For a centered [X], [Y = c * X] followed by [Y - Y.mean(axis=1,
    keepdims=True)] gives back [c * X]: the re-centering in
    [test_scaled_procrustes_multiplication] is a no-op. *)
Theorem recenter_scaled_noop (n p : nat) (c : F) (X : 'M[F]_(n, p)) :
  center (c *: center X) = c *: center X.
Proof. by rewrite -mul_scalar_mx center_mulmx center_center. Qed.

(** For [c ^ 2 + s ^ 2 = 1] (as for [cos 1] and [sin 1]), the matrix
    [[1, 0, 0], [0, c, -s], [0, s, c]] built by the tests is a rotation:
    [R R^T = I], [R^T R = I] and [det R = 1]. *)
Theorem rotation_x_rotation (c s : F) :
  c ^+ 2 + s ^+ 2 = 1 ->
  [/\ rotation_x c s *m (rotation_x c s)^T = 1%:M,
      (rotation_x c s)^T *m rotation_x c s = 1%:M &
      \det (rotation_x c s) = 1].
Proof.
move=> H; split.
- apply/matrixP => i j; rewrite !mxE !big_ord_recl big_ord0 !mxE /=.
  by case: i => [[|[|[|i]]] Hi] //=; case: j => [[|[|[|j]]] Hj] //=; lra.
- apply/matrixP => i j; rewrite !mxE !big_ord_recl big_ord0 !mxE /=.
  by case: i => [[|[|[|i]]] Hi] //=; case: j => [[|[|[|j]]] Hj] //=; lra.
rewrite (expand_det_row _ ord0) !big_ord_recl big_ord0 /cofactor.
rewrite !(expand_det_row _ ord0) !big_ord_recl !big_ord0 /cofactor !det_mx11 !mxE /=.
rewrite /bump /= ?(add0n, addn0, add1n) ?expr0 ?expr1 ?exprS ?expr0.
by transitivity (c ^+ 2 + s ^+ 2); [ring | exact: H].
Qed.

End Centering.

End TestDataFacts.

Module ScoringFacts.

Import Scoring Order.POrderTheory Order.TotalTheory.

Section R2.

Variable F : realFieldType.

Lemma r2_numerator_eq0 (n p : nat) (Yt Yp : 'M[F]_(n, p)) j :
  (r2_numerator Yt Yp j == 0) = [forall i, Yt i j == Yp i j].
Proof.
apply/idP/forallP => [/eqP /psumr_eq0P H i | H].
  by rewrite -subr_eq0 -sqrf_eq0 H // => k _; exact: sqr_ge0.
by apply/eqP; apply: big1 => i _; rewrite (eqP (H i)) subrr expr0n.
Qed.

Lemma r2_score_le1 (n p : nat) (Yt Yp : 'M[F]_(n, p)) r j :
  r2_score_raw Yt Yp = Some r -> r 0 j <= 1.
Proof.
rewrite /r2_score_raw; case: ifP => // _ [<-]; rewrite mxE.
case: eqP => // Hnum; case: eqP => Hden /=; first exact: ler01.
rewrite lerBlDr lerDl divr_ge0 //; apply: sumr_ge0 => i _; exact: sqr_ge0.
Qed.

Lemma r2_score_eq1 (n p : nat) (Yt Yp : 'M[F]_(n, p)) r j :
  r2_score_raw Yt Yp = Some r ->
  (r 0 j == 1) = (r2_numerator Yt Yp j == 0).
Proof.
rewrite /r2_score_raw; case: ifP => // _ [<-]; rewrite mxE.
case: (eqVneq (r2_numerator Yt Yp j) 0) => [-> | Hnum]; first by rewrite eqxx.
case: (eqVneq (r2_denominator Yt j) 0) => [-> | Hden] /=; first by rewrite eq_sym oner_eq0.
apply/negbTE; rewrite -subr_eq0 addrAC subrr add0r oppr_eq0 mulf_eq0 invr_eq0.
by rewrite negb_or Hnum Hden.
Qed.

(** Every score of the example, [np.maximum(r2_score(..., multioutput=
    'raw_values'), -1)], lies in [[-1, 1]] when it is a number (at least two
    samples). *)
Theorem clipped_r2_bounds (n p : nat) (Yt Yp : 'M[F]_(n, p)) r :
  clipped_r2 Yt Yp = Some r -> forall j, -1 <= r 0 j <= 1.
Proof.
rewrite /clipped_r2; case E: r2_score_raw => [r0|] //= [<-] j.
rewrite mxE le_max lexx orbT /= ge_max (r2_score_le1 j E) /=.
by rewrite -subr_ge0 opprK; apply: addr_ge0; exact: ler01.
Qed.

(** A voxel's clipped score is 1 exactly when the prediction equals the
    ground truth on every sample of that voxel. *)
Theorem clipped_r2_one_iff_exact (n p : nat) (Yt Yp : 'M[F]_(n, p)) r j :
  clipped_r2 Yt Yp = Some r ->
  (r 0 j == 1) = [forall i, Yt i j == Yp i j].
Proof.
rewrite /clipped_r2; case E: r2_score_raw => [r0|] //= [<-].
rewrite mxE -r2_numerator_eq0 -(r2_score_eq1 j E).
case: (lerP (r0 0 j) (-1)) => H //.
have -> : (-1 == 1 :> F) = false by apply/negbTE/eqP => H0; clear -H0; lra.
by apply/esym/negbTE; apply: contraTneq H => ->; rewrite -ltNge (lt_trans (ltrN10 _) ltr01).
Qed.

End R2.

End ScoringFacts.

Module FoldsFacts.

Import String Folds.

Lemma zip_select (P : Row -> bool) (s : seq Row) :
  [seq rb.1 | rb <- zip s (map P s) & rb.2] = [seq r <- s | P r].
Proof. by elim: s => //= r s IH; case: (P r) => /=; rewrite IH. Qed.

Lemma In_index (r : Row) (df : DataFrame) :
  List.In r df -> row_index r \in map row_index df.
Proof.
elim: df => //= r' df IH [-> | H]; first by rewrite inE eqxx.
by rewrite inE IH ?orbT.
Qed.

Lemma lookup_column (col : Row -> string) (v : string) (df : DataFrame) r :
  uniq (map row_index df) -> List.In r df ->
  lookup (row_index r) (column_eq col df v) = Some (String.eqb (col r) v).
Proof.
elim: df => //= r' df IH /andP [Hn Hu] [-> | H]; first by rewrite eqxx.
case: eqP => [E | _]; last exact: IH.
by move: Hn; rewrite E (In_index H).
Qed.

Lemma reindex_column (col : Row -> string) (v : string) (df d : DataFrame) :
  uniq (map row_index df) -> (forall r, List.In r d -> List.In r df) ->
  reindex (column_eq col df v) (map row_index d)
  = Some [seq String.eqb (col r) v | r <- d].
Proof.
move=> Hu Hd; rewrite /reindex /column_eq -map_comp /=.
have -> : [seq (fst \o (fun r => (row_index r, String.eqb (col r) v))) i | i <- df]
          = map row_index df by [].
rewrite Hu; elim: d Hd => //= r d IH Hd.
rewrite (IH (fun r' Hr' => Hd r' (or_intror Hr'))).
by have := lookup_column col v Hu (Hd r (or_introl erefl)); rewrite /column_eq => ->.
Qed.

Lemma In_filter (P : Row -> bool) (s : seq Row) r :
  List.In r [seq x <- s | P x] -> List.In r s /\ P r.
Proof.
elim: s => //= x s IH; case: ifP => Hx /=.
  by case=> [<- | /IH [H1 H2]]; [split; [left | ] | split; [right | ]].
by move=> /IH [H1 H2]; split; [right | ].
Qed.

Lemma fold_rows_filter (df : DataFrame) (subj acq : string) :
  uniq (map row_index df) ->
  fold_rows df subj acq
  = Some [seq r <- df | String.eqb (subject r) subj && String.eqb (acquisition r) acq].
Proof.
move=> Hu; rewrite /fold_rows /bool_select /=.
have -> : map fst (column_eq subject df subj) = map row_index df
  by rewrite /column_eq -map_comp.
rewrite eqxx /= /column_eq -map_comp.
have -> : [seq (snd \o (fun r => (row_index r, String.eqb (subject r) subj))) i | i <- df]
          = [seq String.eqb (subject r) subj | r <- df] by [].
rewrite zip_select.
set d1 := [seq r <- df | _].
have -> : map fst [seq (row_index r, String.eqb (acquisition r) acq) | r <- df]
          = map row_index df by rewrite -map_comp.
case: eqP => Hidx.
  have Hall : d1 = df.
    apply/all_filterP; rewrite all_count -size_filter -/d1.
    by rewrite -(size_map row_index d1) -Hidx size_map.
  rewrite -map_comp /=.
  have -> : [seq (snd \o (fun r => (row_index r, String.eqb (acquisition r) acq))) i | i <- df]
            = [seq String.eqb (acquisition r) acq | r <- df] by [].
  rewrite [in zip d1 _]Hall zip_select -{1}Hall /d1 -filter_predI.
  by congr Some; apply: eq_filter => r /=; rewrite andbC.
rewrite (reindex_column acquisition acq Hu (fun r H => (In_filter H).1)).
rewrite /= zip_select /d1 -filter_predI.
by congr Some; apply: eq_filter => r /=; rewrite andbC.
Qed.

(** With a frame whose index labels are distinct, the chained selection
    [df[df.subject == subj][df.acquisition == acq].path.values] succeeds and
    gives the paths of exactly the rows with that subject and that
    acquisition, in the frame's order (the second mask, computed on the whole
    frame, is realigned to the selected rows). *)
Theorem fold_paths_select (df : DataFrame) (subj acq : string) :
  uniq (map row_index df) ->
  fold_paths df subj acq
  = Some [seq path r | r <- df & String.eqb (subject r) subj
                                 && String.eqb (acquisition r) acq].
Proof. by move=> Hu; rewrite /fold_paths fold_rows_filter. Qed.

(** With distinct index labels, folds selected for two different (subject,
    acquisition) pairs, such as the example's training and testing folds, or
    its source and target folds, have no row in common. *)
Theorem folds_disjoint (df : DataFrame) (s1 a1 s2 a2 : string) :
  uniq (map row_index df) ->
  String.eqb s1 s2 && String.eqb a1 a2 = false ->
  match fold_rows df s1 a1, fold_rows df s2 a2 with
  | Some d1, Some d2 => forall r, List.In r d1 -> List.In r d2 -> False
  | _, _ => False
  end.
Proof.
move=> Hu Hne; rewrite !fold_rows_filter // => r.
move=> /In_filter [_ /andP [/String.eqb_eq E1 /String.eqb_eq E2]].
move=> /In_filter [_ /andP [/String.eqb_eq E3 /String.eqb_eq E4]].
by move: Hne; rewrite -E1 -E2 -E3 -E4 !String.eqb_refl.
Qed.

End FoldsFacts.

Module ExtraWitnesses.

Import String Folds ExtraInstances TestData TestDataFacts Scoring ScoringFacts
  FoldsFacts.

Lemma three_four_fifths : (3 / 5 : rat) ^+ 2 + (4 / 5) ^+ 2 = 1.
Proof. by []. Qed.

Lemma rotation_x_rotation_witness :
  (3 / 5 : rat) ^+ 2 + (4 / 5) ^+ 2 = 1 /\
  [/\ rotation_x (3 / 5 : rat) (4 / 5) *m (rotation_x (3 / 5 : rat) (4 / 5))^T = 1%:M,
      (rotation_x (3 / 5 : rat) (4 / 5))^T *m rotation_x (3 / 5 : rat) (4 / 5) = 1%:M &
      \det (rotation_x (3 / 5 : rat) (4 / 5)) = 1].
Proof.
split; first exact: three_four_fifths.
exact: (rotation_x_rotation three_four_fifths).
Defined.

Lemma clipped_two_samples :
  clipped_r2 two_samples shifted_samples
  = Some (odflt 0 (clipped_r2 two_samples shifted_samples)).
Proof. by []. Qed.

Lemma clipped_r2_bounds_witness :
  clipped_r2 two_samples shifted_samples
    = Some (odflt 0 (clipped_r2 two_samples shifted_samples)) /\
  forall j, -1 <= (odflt 0 (clipped_r2 two_samples shifted_samples)) 0 j <= 1.
Proof.
split; first exact: clipped_two_samples.
exact: (clipped_r2_bounds clipped_two_samples).
Defined.

Lemma clipped_r2_one_iff_exact_witness :
  clipped_r2 two_samples shifted_samples
    = Some (odflt 0 (clipped_r2 two_samples shifted_samples)) /\
  ((odflt 0 (clipped_r2 two_samples shifted_samples)) 0 0 == 1)
  = [forall i, two_samples i 0 == shifted_samples i 0].
Proof.
split; first exact: clipped_two_samples.
exact: (clipped_r2_one_iff_exact 0 clipped_two_samples).
Defined.

Lemma ibc_frame_uniq : uniq (map row_index ibc_frame).
Proof. by []. Qed.

Lemma fold_paths_select_witness :
  uniq (map row_index ibc_frame) /\
  fold_paths ibc_frame "sub-01" "ap"
  = Some [seq path r | r <- ibc_frame & String.eqb (subject r) "sub-01"
                                         && String.eqb (acquisition r) "ap"].
Proof.
split; first exact: ibc_frame_uniq.
exact: (fold_paths_select "sub-01" "ap" ibc_frame_uniq).
Defined.

Lemma folds_disjoint_witness :
  uniq (map row_index ibc_frame) /\
  String.eqb "sub-01" "sub-01" && String.eqb "ap" "pa" = false /\
  match fold_rows ibc_frame "sub-01" "ap", fold_rows ibc_frame "sub-01" "pa" with
  | Some d1, Some d2 => forall r, List.In r d1 -> List.In r d2 -> False
  | _, _ => False
  end.
Proof.
split; first exact: ibc_frame_uniq.
split; first by [].
exact: (folds_disjoint (s1 := "sub-01") (a1 := "ap") (s2 := "sub-01") (a2 := "pa")
          ibc_frame_uniq (erefl false)).
Defined.

End ExtraWitnesses.
